(* ===================================================================== *)
(* advanced-react-hooks: the async-state reducer, the safe dispatcher     *)
(* and the counter reducer (src/exercise/02.extra-1.js, 01.extra-1.js).   *)
(*                                                                       *)
(* The component functions are embedded as Rocq functions over an         *)
(* explicit world: the store React.useReducer keeps, the mountedRef       *)
(* cell, the promise reactions registered with `then`, and the job        *)
(* queue of the event loop.                                               *)
(* ===================================================================== *)

From Stdlib Require Import ZArith Lia.
From stdpp Require Import base option list strings gmap.

Local Open Scope string_scope.
Local Open Scope Z_scope.
Local Set Warnings "-register-all".

(* --------------------------------------------------------------------- *)
(* JavaScript values                                                      *)
(* --------------------------------------------------------------------- *)

(* Numbers are the integer ones; an object literal keeps its properties
   in source order, and a later property of the same name wins. *)
Inductive value : Type :=
| VUndefined
| VNull
| VBool (b : bool)
| VNum (n : Z)
| VStr (s : string)
| VObj (props : list (string * value))
| VPromise (p : nat).

(* What `if (!v)` tests. *)
Definition truthy (v : value) : bool :=
  match v with
  | VUndefined | VNull => false
  | VBool b => b
  | VNum n => negb (n =? 0)
  | VStr s => negb (String.eqb s "")
  | VObj _ | VPromise _ => true
  end.

(* `v === 'lit'` for a string literal. *)
Definition is_str (v : value) (lit : string) : bool :=
  match v with
  | VStr s => String.eqb s lit
  | _ => false
  end.

Fixpoint lookup_prop (k : string) (props : list (string * value)) : option value :=
  match props with
  | [] => None
  | (k', v) :: rest =>
      match lookup_prop k rest with
      | Some v' => Some v'
      | None => if String.eqb k' k then Some v else None
      end
  end.

(* Whether `${v}` in a template literal yields a string. An object with
   an own toString property does not: no value here is a function, so the
   conversion finds nothing to call and throws a TypeError. *)
Definition converts_to_string (v : value) : bool :=
  match v with
  | VObj props =>
      match lookup_prop "toString" props with
      | Some _ => false
      | None => true
      end
  | _ => true
  end.

(* The own properties `...v` copies into an object literal; the index
   properties of a string are left out, no code here reads them. *)
Definition spread (v : value) : list (string * value) :=
  match v with
  | VObj props => props
  | _ => []
  end.

(* --------------------------------------------------------------------- *)
(* Exceptions and results                                                 *)
(* --------------------------------------------------------------------- *)

(* ErrorWith text v is new Error(`text${v}`) for a v that converts to a
   string: its message is text followed by that string. *)
Inductive exn : Type :=
| Error (msg : string)
| ErrorWith (text : string) (v : value)
| TypeError (msg : string).

Inductive result (A : Type) : Type :=
| Return (a : A)
| Throw (e : exn).
Arguments Return {A} a.
Arguments Throw {A} e.

Definition is_throw {A} (r : result A) : bool :=
  match r with Throw _ => true | Return _ => false end.

Definition rbind {A B} (r : result A) (k : A -> result B) : result B :=
  match r with
  | Return a => k a
  | Throw e => Throw e
  end.

(* `v.k` *)
Definition get_prop (v : value) (k : string) : result value :=
  match v with
  | VUndefined => Throw (TypeError ("Cannot read properties of undefined (reading '" +:+ k +:+ "')"))
  | VNull => Throw (TypeError ("Cannot read properties of null (reading '" +:+ k +:+ "')"))
  | VObj props => Return (default VUndefined (lookup_prop k props))
  | _ => Return VUndefined
  end.

(* --------------------------------------------------------------------- *)
(* 02.extra-1.js: reducer                                                 *)
(* --------------------------------------------------------------------- *)

Record AsyncState : Type := mkState {
  status : value;
  data : value;
  error : value;
}.

Definition reducer (state : AsyncState) (action : value) : result AsyncState :=
  rbind (get_prop action "type") (fun type =>
  if is_str type "pending" then
    Return {| status := VStr "pending"; data := VNull; error := VNull |}
  else if is_str type "resolved" then
    rbind (get_prop action "data") (fun d =>
    Return {| status := VStr "resolved"; data := d; error := VNull |})
  else if is_str type "rejected" then
    rbind (get_prop action "error") (fun e =>
    Return {| status := VStr "rejected"; data := VNull; error := e |})
  else if converts_to_string type then
    Throw (ErrorWith "Unhandled action type: " type)
  else
    Throw (TypeError "Cannot convert object to primitive value")).

(* `{data: null, error: null, status: 'idle', ...initialStatus}` *)
Definition initial_state (initialStatus : value) : AsyncState :=
  let props :=
    ([("data", VNull); ("error", VNull); ("status", VStr "idle")] ++ spread initialStatus)%list in
  {| status := default VUndefined (lookup_prop "status" props);
     data := default VUndefined (lookup_prop "data" props);
     error := default VUndefined (lookup_prop "error" props) |}.

(* --------------------------------------------------------------------- *)
(* The world of one mounted component                                     *)
(* --------------------------------------------------------------------- *)

(* How a promise settles. *)
Inductive outcome : Type :=
| Fulfilled (v : value)
| Rejected (reason : value).

Record world : Type := mkWorld {
  state : AsyncState;            (* the store behind React.useReducer *)
  mountedRef : bool;             (* mountedRef.current *)
  calls : list (list value);     (* argument lists unsafeDispatch was called with, oldest first *)
  settled : gmap nat outcome;    (* the promises that have settled *)
  reactions : list nat;          (* `then` handlers waiting on an unsettled promise, oldest first *)
  jobs : list outcome;           (* promise jobs ready to run, oldest first *)
  next_promise : nat;            (* the next promise fetchPokemon creates *)
}.

Definition set_state (s : AsyncState) (w : world) : world :=
  mkWorld s (mountedRef w) (calls w) (settled w) (reactions w) (jobs w) (next_promise w).
Definition set_mountedRef (b : bool) (w : world) : world :=
  mkWorld (state w) b (calls w) (settled w) (reactions w) (jobs w) (next_promise w).
Definition set_calls (c : list (list value)) (w : world) : world :=
  mkWorld (state w) (mountedRef w) c (settled w) (reactions w) (jobs w) (next_promise w).
Definition set_settled (m : gmap nat outcome) (w : world) : world :=
  mkWorld (state w) (mountedRef w) (calls w) m (reactions w) (jobs w) (next_promise w).
Definition set_reactions (r : list nat) (w : world) : world :=
  mkWorld (state w) (mountedRef w) (calls w) (settled w) r (jobs w) (next_promise w).
Definition set_jobs (j : list outcome) (w : world) : world :=
  mkWorld (state w) (mountedRef w) (calls w) (settled w) (reactions w) j (next_promise w).
Definition set_next_promise (n : nat) (w : world) : world :=
  mkWorld (state w) (mountedRef w) (calls w) (settled w) (reactions w) (jobs w) n.

(* A computation reads and writes the world and returns or throws; what
   it wrote before a throw stays written. *)
Definition M (A : Type) : Type := world -> result A * world.

Definition ret {A} (a : A) : M A := fun w => (Return a, w).
Definition throw {A} (e : exn) : M A := fun w => (Throw e, w).
Definition bind {A B} (m : M A) (k : A -> M B) : M B :=
  fun w =>
    match m w with
    | (Return a, w') => k a w'
    | (Throw e, w') => (Throw e, w')
    end.
Definition gets {A} (f : world -> A) : M A := fun w => (Return (f w), w).
Definition modify (f : world -> world) : M unit := fun w => (Return tt, f w).

Declare Scope js_scope.
Delimit Scope js_scope with js.
Notation "x <- m ;; k" := (bind m (fun x => k))
  (at level 100, m at next level, right associativity) : js_scope.
Notation "m ;;; k" := (bind m (fun _ => k))
  (at level 100, right associativity) : js_scope.
Local Open Scope js_scope.

(* Modelled from the spec: the dispatch function React.useReducer hands
   out; React is not among the sources. Spec sections 2 and 4.2: the raw
   state-mutation function the safe dispatcher wraps; section 8: an
   unknown action kind leaves the state unchanged. On a component React
   has mounted it takes its first argument as the action and runs the
   reducer on the store. When the reducer throws, the store keeps its
   value and the call returns: React keeps the error for the render,
   where the error boundary around PokemonInfo receives it. *)
Definition unsafeDispatch (args : list value) : M unit :=
  modify (fun w => set_calls (calls w ++ [args]) w) ;;;
  s <- gets state ;;
  match reducer s (hd VUndefined args) with
  | Return s' => modify (set_state s')
  | Throw _ => ret tt
  end.

(* `promise.then(onFulfilled, onRejected)` with the two handlers of the
   hook: on a promise it registers the reaction, or queues its job when
   the promise has settled already; any other truthy value has no `then`. *)
Definition promise_then (promise : value) : M unit :=
  match promise with
  | VPromise p =>
      s <- gets settled ;;
      match s !! p with
      | Some o => modify (fun w => set_jobs (jobs w ++ [o]) w)
      | None => modify (fun w => set_reactions (reactions w ++ [p]) w)
      end
  | _ => throw (TypeError "promise.then is not a function")
  end.

(* Modelled from the spec: fetchPokemon is imported from ../pokemon, which
   is not among the sources. Spec section 6: a factory producing a future
   of typed data given an external key; the future settles later, with the
   data or with an error value. *)
Definition fetchPokemon (pokemonName : value) : M value :=
  n <- gets next_promise ;;
  modify (set_next_promise (S n)) ;;;
  ret (VPromise n).

(* --------------------------------------------------------------------- *)
(* 02.extra-1.js, first listing: useAsync(asyncCallback, initialStatus)   *)
(* --------------------------------------------------------------------- *)

Module CallbackHook.

(* The effect of useAsync; dispatch is React's own. *)
Definition useAsync_effect (asyncCallback : M value) : M unit :=
  promise <- asyncCallback ;;
  if negb (truthy promise) then ret tt
  else
    unsafeDispatch [VObj [("type", VStr "pending")]] ;;;
    promise_then promise.

Definition onFulfilled (data : value) : M unit :=
  unsafeDispatch [VObj [("type", VStr "resolved"); ("data", data)]].
Definition onRejected (error : value) : M unit :=
  unsafeDispatch [VObj [("type", VStr "rejected"); ("error", error)]].

(* The callback PokemonInfo memoises. *)
Definition asyncCallback (pokemonName : value) : M value :=
  if negb (truthy pokemonName) then ret VUndefined
  else fetchPokemon pokemonName.

End CallbackHook.

(* --------------------------------------------------------------------- *)
(* 02.extra-1.js, second listing: useSafeDispatch, useAsync and run       *)
(* --------------------------------------------------------------------- *)

Definition useSafeDispatch (unsafeDispatch : list value -> M unit) : list value -> M unit :=
  fun args =>
    current <- gets mountedRef ;;
    if current then unsafeDispatch args else ret tt.

(* The effect of useSafeDispatch and the cleanup it returns. *)
Definition useSafeDispatch_effect : M unit := modify (set_mountedRef true).
Definition useSafeDispatch_cleanup : M unit := modify (set_mountedRef false).

Definition dispatch : list value -> M unit := useSafeDispatch unsafeDispatch.

Definition run (promise : value) : M unit :=
  if negb (truthy promise) then ret tt
  else
    dispatch [VObj [("type", VStr "pending")]] ;;;
    promise_then promise.

Definition onFulfilled (data : value) : M unit :=
  dispatch [VObj [("type", VStr "resolved"); ("data", data)]].
Definition onRejected (error : value) : M unit :=
  dispatch [VObj [("type", VStr "rejected"); ("error", error)]].

(* PokemonInfo: the state useAsync starts from, with mountedRef as
   useRef(false) leaves it, and the effect that starts a fetch. *)
Definition PokemonInfo_mount (pokemonName : value) : world :=
  {| state := initial_state
       (VObj [("status", VStr (if truthy pokemonName then "pending" else "idle"))]);
     mountedRef := false;
     calls := [];
     settled := ∅;
     reactions := [];
     jobs := [];
     next_promise := 0%nat |}.

Definition PokemonInfo_effect (pokemonName : value) : M unit :=
  if negb (truthy pokemonName) then ret tt
  else
    promise <- fetchPokemon pokemonName ;;
    run promise.

(* What PokemonInfo renders. *)
Inductive view : Type :=
| SubmitAPokemon
| PokemonInfoFallback (name : value)
| PokemonDataView (pokemon : value).

Inductive thrown : Type :=
| ThrowValue (v : value)
| ThrowExn (e : exn).

Definition PokemonInfo_render (pokemonName : value) (s : AsyncState) : view + thrown :=
  if is_str (status s) "idle" || negb (truthy pokemonName) then inl SubmitAPokemon
  else if is_str (status s) "pending" then inl (PokemonInfoFallback pokemonName)
  else if is_str (status s) "rejected" then inr (ThrowValue (error s))
  else if is_str (status s) "resolved" then inl (PokemonDataView (data s))
  else inr (ThrowExn (Error "This should be impossible")).

(* --------------------------------------------------------------------- *)
(* The event loop                                                         *)
(* --------------------------------------------------------------------- *)

(* What can happen to a mounted PokemonInfo, one event per turn. An event
   that throws leaves the world as the throw found it. *)
Inductive event : Type :=
| Commit                          (* the effect of useSafeDispatch runs *)
| Cleanup                         (* its cleanup runs *)
| CallRun (promise : value)       (* run(promise) *)
| Effect (pokemonName : value)    (* the effect of PokemonInfo runs *)
| Settle (p : nat) (o : outcome)  (* promise p settles, unless it has *)
| Tick.                           (* the oldest promise job runs *)

(* A promise settles once; its waiting reactions become jobs. *)
Definition settle (p : nat) (o : outcome) (w : world) : world :=
  match settled w !! p with
  | Some _ => w
  | None =>
      let fired := filter (fun q => q = p) (reactions w) in
      let waiting := filter (fun q => q ≠ p) (reactions w) in
      set_settled (<[p := o]> (settled w))
        (set_reactions waiting
          (set_jobs (jobs w ++ ((fun _ => o) <$> fired)) w))
  end.

Definition run_job (o : outcome) : M unit :=
  match o with
  | Fulfilled data => onFulfilled data
  | Rejected error => onRejected error
  end.

Definition tick (w : world) : world :=
  match jobs w with
  | [] => w
  | o :: rest => snd (run_job o (set_jobs rest w))
  end.

Definition step (e : event) (w : world) : world :=
  match e with
  | Commit => snd (useSafeDispatch_effect w)
  | Cleanup => snd (useSafeDispatch_cleanup w)
  | CallRun promise => snd (run promise w)
  | Effect pokemonName => snd (PokemonInfo_effect pokemonName w)
  | Settle p o => settle p o w
  | Tick => tick w
  end.

Fixpoint exec (es : list event) (w : world) : world :=
  match es with
  | [] => w
  | e :: es' => exec es' (step e w)
  end.

(* The state after each event, oldest first. *)
Fixpoint observed (es : list event) (w : world) : list AsyncState :=
  match es with
  | [] => []
  | e :: es' => state (step e w) :: observed es' (step e w)
  end.

(* --------------------------------------------------------------------- *)
(* The four variants of the spec and the properties the claims name       *)
(* --------------------------------------------------------------------- *)

Inductive variant : Type := Idle | Pending | Resolved | RejectedWith.

Definition variant_of (s : AsyncState) : option variant :=
  if is_str (status s) "idle" then Some Idle
  else if is_str (status s) "pending" then Some Pending
  else if is_str (status s) "resolved" then Some Resolved
  else if is_str (status s) "rejected" then Some RejectedWith
  else None.

Definition is_null (v : value) : bool :=
  match v with VNull => true | _ => false end.

(* One variant at a time: data is set in Resolved only, error in
   Rejected only. *)
Definition well_formed (s : AsyncState) : bool :=
  match variant_of s with
  | Some Idle | Some Pending => is_null (data s) && is_null (error s)
  | Some Resolved => is_null (error s)
  | Some RejectedWith => is_null (data s)
  | None => false
  end.

(* The same, as the spec states it. *)
Definition one_variant (s : AsyncState) : Prop :=
  exists v, variant_of s = Some v /\
    (data s <> VNull -> v = Resolved) /\
    (error s <> VNull -> v = RejectedWith).

Definition pending_state : AsyncState :=
  {| status := VStr "pending"; data := VNull; error := VNull |}.
Definition idle_state : AsyncState :=
  {| status := VStr "idle"; data := VNull; error := VNull |}.

(* The state a settlement writes. *)
Definition state_of (o : outcome) : AsyncState :=
  match o with
  | Fulfilled d => {| status := VStr "resolved"; data := d; error := VNull |}
  | Rejected e => {| status := VStr "rejected"; data := VNull; error := e |}
  end.

(* The action a settlement dispatches. *)
Definition action_of (o : outcome) : value :=
  match o with
  | Fulfilled d => VObj [("type", VStr "resolved"); ("data", d)]
  | Rejected e => VObj [("type", VStr "rejected"); ("error", e)]
  end.

(* The action run dispatches first. *)
Definition pending_action : value := VObj [("type", VStr "pending")].

(* The transitions between variants that the spec lists. *)
Definition listed (v v' : variant) : bool :=
  match v, v' with
  | (Idle | Resolved | RejectedWith), Pending => true
  | Pending, (Resolved | RejectedWith) => true
  | _, _ => false
  end.

Definition same_variant (v v' : variant) : bool :=
  match v, v' with
  | Idle, Idle | Pending, Pending | Resolved, Resolved | RejectedWith, RejectedWith => true
  | _, _ => false
  end.

(* The step from s to s' keeps the variant or takes a listed transition. *)
Definition transition_ok (s s' : AsyncState) : bool :=
  match variant_of s, variant_of s' with
  | Some v, Some v' => same_variant v v' || listed v v'
  | _, _ => false
  end.

Fixpoint transitions_ok (es : list event) (w : world) : bool :=
  match es with
  | [] => true
  | e :: es' => transition_ok (state w) (state (step e w)) && transitions_ok es' (step e w)
  end.

(* Nothing is in flight: no reaction waits and no job is queued. *)
Definition quiet (w : world) : bool :=
  match reactions w, jobs w with
  | [], [] => true
  | _, _ => false
  end.

Definition starts_run (e : event) : bool :=
  match e with
  | CallRun promise => truthy promise
  | Effect pokemonName => truthy pokemonName
  | _ => false
  end.

(* Runs do not overlap: each one starts on a mounted component with
   nothing in flight. *)
Fixpoint serial (es : list event) (w : world) : bool :=
  match es with
  | [] => true
  | e :: es' =>
      (if starts_run e then mountedRef w && quiet w else true) && serial es' (step e w)
  end.

(* At most one reaction or job is in flight, and the state is Pending
   while one is. *)
Definition one_in_flight (w : world) : Prop :=
  (reactions w = [] /\ jobs w = []) \/
  (state w = pending_state /\
   ((exists q, reactions w = [q] /\ jobs w = []) \/
    (exists o, reactions w = [] /\ jobs w = [o]))).

Definition no_commit (es : list event) : bool :=
  forallb (fun e => match e with Commit => false | _ => true end) es.

(* The state after an event is the state before it, the Pending state
   (a run on a mounted component) or the state of a settlement (a job on
   a mounted component). *)
Inductive step_writes (w : world) (e : event) : Prop :=
| writes_nothing :
    state (step e w) = state w -> calls (step e w) = calls w ->
    step_writes w e
| writes_pending :
    mountedRef w = true -> starts_run e = true ->
    state (step e w) = pending_state ->
    calls (step e w) = (calls w ++ [[pending_action]])%list ->
    step_writes w e
| writes_settlement (o : outcome) (rest : list outcome) :
    mountedRef w = true -> e = Tick -> jobs w = o :: rest ->
    state (step e w) = state_of o ->
    calls (step e w) = (calls w ++ [[action_of o]])%list ->
    step_writes w e.

(* --------------------------------------------------------------------- *)
(* 01.extra-1.js: Counter                                                 *)
(* --------------------------------------------------------------------- *)

Module Counter.

(* A JavaScript number that is an integer (0 and -0 taken as one, they
   show the same), an infinity, or NaN. Finite z is a number when a
   binary64 holds z: every z up to 2^53 in magnitude, and beyond that a
   53-bit integer times a power of two. *)
Inductive number : Type :=
| Finite (z : Z)
| Infinity (negative : bool)
| NaN.

(* The binary64 number nearest to the integer x, ties to the even
   significand; from 2^1024 on it is an infinity. *)
Definition round64 (x : Z) : number :=
  let a := Z.abs x in
  let e := Z.max 0 (Z.log2 a - 52) in
  let q := a / 2 ^ e in
  let r := a mod 2 ^ e in
  let up :=
    if e =? 0 then false
    else (2 ^ (e - 1) <? r) || ((2 ^ (e - 1) =? r) && Z.odd q) in
  let m := (if up then q + 1 else q) * 2 ^ e in
  if 2 ^ 1024 <=? m then Infinity (x <? 0) else Finite (Z.sgn x * m).

(* `a + b` on numbers: the exact sum, rounded once. *)
Definition add (a b : number) : number :=
  match a, b with
  | NaN, _ | _, NaN => NaN
  | Infinity s, Infinity s' => if Bool.eqb s s' then Infinity s else NaN
  | Infinity s, Finite _ | Finite _, Infinity s => Infinity s
  | Finite x, Finite y => round64 (x + y)
  end.

(* The props; None is a prop left out, which takes the default. *)
Record props : Type := mkProps {
  initialCount : option number;
  step : option number;
}.

Definition countReducer (state newState : number) : number := add state newState.

(* React.useReducer(countReducer, initialCount) on the first render. *)
Definition mount (p : props) : number := default (Finite 0) (initialCount p).

(* increment = () => setCount(step) *)
Definition increment (p : props) (count : number) : number :=
  countReducer count (default (Finite 1) (step p)).

(* The count the button shows after k clicks. *)
Definition clicks (p : props) (k : nat) : number :=
  Nat.iter k (increment p) (mount p).

(* <Counter /> as App renders it. *)
Definition App : props := mkProps None None.

End Counter.

(* --------------------------------------------------------------------- *)
(* 02.extra-1.js, first listing, on the event loop                        *)
(* --------------------------------------------------------------------- *)

Module CallbackLoop.

(* The effect of useAsync with the callback of PokemonInfo. *)
Definition effect (pokemonName : value) (w : world) : world :=
  snd (CallbackHook.useAsync_effect (CallbackHook.asyncCallback pokemonName) w).

Definition run_job (o : outcome) : M unit :=
  match o with
  | Fulfilled data => CallbackHook.onFulfilled data
  | Rejected error => CallbackHook.onRejected error
  end.

Definition tick (w : world) : world :=
  match jobs w with
  | [] => w
  | o :: rest => snd (run_job o (set_jobs rest w))
  end.

End CallbackLoop.

(* --------------------------------------------------------------------- *)
(* 02.extra-1.js: App                                                     *)
(* --------------------------------------------------------------------- *)

Module PokemonApp.

(* React.useState('') *)
Definition initial : value := VStr "".

(* The two handlers, as what they set pokemonName to. *)
Definition handleSubmit (newPokemonName : value) (pokemonName : value) : value :=
  newPokemonName.
Definition handleReset (pokemonName : value) : value := VStr "".

End PokemonApp.

(* --------------------------------------------------------------------- *)
(* Measures on a run of events                                            *)
(* --------------------------------------------------------------------- *)

(* The store after the logged calls of unsafeDispatch, replayed in order
   from s0. *)
Definition replay (s0 : AsyncState) (cs : list (list value)) : AsyncState :=
  fold_left
    (fun s args =>
       match reducer s (hd VUndefined args) with
       | Return s' => s'
       | Throw _ => s
       end)
    cs s0.

(* How many events of es start a run. *)
Fixpoint runs_started (es : list event) : nat :=
  match es with
  | [] => 0%nat
  | e :: es' => ((if starts_run e then 1 else 0) + runs_started es')%nat
  end.

(* The dispatches made, and those still to come. *)
Definition load (w : world) : nat :=
  (length (calls w) + length (reactions w) + length (jobs w))%nat.

(* ===================================================================== *)
(* Theorems                                                               *)
(* ===================================================================== *)

(* --------------------------------------------------------------------- *)
(* The reducer                                                            *)
(* --------------------------------------------------------------------- *)

Lemma is_str_true (v : value) (lit : string) : is_str v lit = true <-> v = VStr lit.
Proof.
  destruct v; simpl; try (split; [discriminate | discriminate]).
  rewrite String.eqb_eq. split; [intros ->; reflexivity | intros [= ->]; reflexivity].
Qed.

Lemma is_str_false (v : value) (lit : string) : is_str v lit = false <-> v <> VStr lit.
Proof.
  rewrite <- is_str_true. destruct (is_str v lit); split; congruence.
Qed.

(* Whatever the reducer returns depends on the action only. *)
Lemma reducer_forgets_state (s1 s2 : AsyncState) (action : value) :
  reducer s1 action = reducer s2 action.
Proof. reflexivity. Qed.

Lemma reducer_pending (s : AsyncState) (props : list (string * value)) :
  lookup_prop "type" props = Some (VStr "pending") ->
  reducer s (VObj props) = Return pending_state.
Proof. intros H. unfold reducer. simpl. rewrite H. reflexivity. Qed.

Lemma reducer_action_of (s : AsyncState) (o : outcome) :
  reducer s (action_of o) = Return (state_of o).
Proof. destruct o; reflexivity. Qed.

(* A null or undefined action has no `type` to read. *)
Lemma reducer_no_action (s : AsyncState) (action : value) :
  action = VNull \/ action = VUndefined -> is_throw (reducer s action) = true.
Proof. intros [-> | ->]; reflexivity. Qed.

(** C4: for every state and every action whose type is none of 'pending',
    'resolved' and 'rejected', the reducer throws instead of returning a
    state, and the stored state is as it was after that action has been
    dispatched. *)
Theorem reducer_unknown_type_throws (s : AsyncState) (action type : value) (w : world) :
  get_prop action "type" = Return type ->
  type <> VStr "pending" -> type <> VStr "resolved" -> type <> VStr "rejected" ->
  (exists e, reducer s action = Throw e) /\
  state (snd (unsafeDispatch [action] w)) = state w.
Proof.
  intros Hty Hp Hr Hj.
  apply is_str_false in Hp, Hr, Hj.
  assert (Hred : forall s0, exists e, reducer s0 action = Throw e).
  { intros s0. unfold reducer. rewrite Hty. simpl. rewrite Hp, Hr, Hj.
    destruct (converts_to_string type); eexists; reflexivity. }
  split; [apply Hred |].
  destruct (Hred (state w)) as [e He].
  unfold unsafeDispatch, bind, modify, gets, ret. simpl.
  rewrite He. reflexivity.
Qed.

Lemma reducer_unknown_type_throws_witness :
  (exists e, reducer idle_state (VObj [("type", VStr "reset")]) = Throw e) /\
  state (snd (unsafeDispatch [VObj [("type", VStr "reset")]] (PokemonInfo_mount (VStr ""))))
    = state (PokemonInfo_mount (VStr "")).
Proof.
  apply (reducer_unknown_type_throws idle_state (VObj [("type", VStr "reset")])
           (VStr "reset") (PokemonInfo_mount (VStr ""))).
  - reflexivity.
  - discriminate.
  - discriminate.
  - discriminate.
Defined.

(** C9: for every pair of states s1, s2 and every action whose type is
    'pending', 'resolved' or 'rejected', the reducer returns a successor
    state, and the same one from s1 as from s2: the successor is decided
    by the action alone. *)
Theorem reducer_recognized_ignores_state (s1 s2 : AsyncState) (action type : value) :
  get_prop action "type" = Return type ->
  type = VStr "pending" \/ type = VStr "resolved" \/ type = VStr "rejected" ->
  exists s', reducer s1 action = Return s' /\ reducer s2 action = Return s'.
Proof.
  intros Hty Hrec.
  assert (Hobj : exists s', reducer s1 action = Return s').
  { unfold reducer. rewrite Hty. simpl.
    destruct action; try discriminate Hty;
      try (injection Hty as <-; destruct Hrec as [H | [H | H]]; discriminate H).
    destruct Hrec as [-> | [-> | ->]]; simpl; eexists; reflexivity. }
  destruct Hobj as [s' Hs']. exists s'. split; [exact Hs' |].
  rewrite <- Hs'. apply reducer_forgets_state.
Qed.

Lemma reducer_recognized_ignores_state_witness :
  exists s',
    reducer idle_state (VObj [("type", VStr "resolved"); ("data", VStr "pikachu")]) = Return s' /\
    reducer pending_state (VObj [("type", VStr "resolved"); ("data", VStr "pikachu")]) = Return s'.
Proof.
  apply (reducer_recognized_ignores_state idle_state pending_state
           (VObj [("type", VStr "resolved"); ("data", VStr "pikachu")]) (VStr "resolved")).
  - reflexivity.
  - right. left. reflexivity.
Defined.

(* --------------------------------------------------------------------- *)
(* The safe dispatcher                                                    *)
(* --------------------------------------------------------------------- *)

Lemma useSafeDispatch_unmounted (f : list value -> M unit) (args : list value) (w : world) :
  mountedRef w = false -> useSafeDispatch f args w = (Return tt, w).
Proof. intros H. unfold useSafeDispatch, bind, gets, ret. rewrite H. reflexivity. Qed.

Lemma useSafeDispatch_mounted (f : list value -> M unit) (args : list value) (w : world) :
  mountedRef w = true -> useSafeDispatch f args w = f args w.
Proof. intros H. unfold useSafeDispatch, bind, gets. rewrite H. reflexivity. Qed.

Lemma unsafeDispatch_calls (args : list value) (w : world) :
  calls (snd (unsafeDispatch args w)) = (calls w ++ [args])%list.
Proof.
  unfold unsafeDispatch, bind, modify, gets, throw. simpl.
  destruct (reducer (state w) (hd VUndefined args)); reflexivity.
Qed.

Lemma unsafeDispatch_returns (action : value) (s' : AsyncState) (w : world) :
  reducer (state w) action = Return s' ->
  unsafeDispatch [action] w = (Return tt, set_state s' (set_calls (calls w ++ [[action]]) w)).
Proof.
  intros H. unfold unsafeDispatch, bind, modify, gets. simpl. rewrite H. reflexivity.
Qed.

(** C3: for every underlying mutator and every argument list (an action),
    the function useSafeDispatch returns does nothing when mountedRef is
    false: it returns, the world is untouched and the mutator is not
    called; when mountedRef is true it is the call of the mutator with the
    same arguments. For the hook's own dispatch the log of mutator calls
    stays as it was in the first case and grows by the arguments in the
    second. *)
Theorem safe_dispatch_guard (f : list value -> M unit) (args : list value) (w : world) :
  (mountedRef w = false ->
     useSafeDispatch f args w = (Return tt, w) /\
     calls (snd (dispatch args w)) = calls w) /\
  (mountedRef w = true ->
     useSafeDispatch f args w = f args w /\
     calls (snd (dispatch args w)) = (calls w ++ [args])%list).
Proof.
  split; intros H.
  - split; [apply useSafeDispatch_unmounted, H |].
    unfold dispatch. rewrite useSafeDispatch_unmounted by exact H. reflexivity.
  - split; [apply useSafeDispatch_mounted, H |].
    unfold dispatch. rewrite useSafeDispatch_mounted by exact H.
    apply unsafeDispatch_calls.
Qed.

Lemma safe_dispatch_guard_witness :
  let a := VObj [("type", VStr "pending")] in
  let w0 := PokemonInfo_mount (VStr "") in
  let w1 := step Commit w0 in
  (useSafeDispatch unsafeDispatch [a] w0 = (Return tt, w0) /\
   calls (snd (dispatch [a] w0)) = calls w0) /\
  (useSafeDispatch unsafeDispatch [a] w1 = unsafeDispatch [a] w1 /\
   calls (snd (dispatch [a] w1)) = (calls w1 ++ [[a]])%list).
Proof.
  intros a w0 w1. split.
  - apply (proj1 (safe_dispatch_guard unsafeDispatch [a] w0)). reflexivity.
  - apply (proj2 (safe_dispatch_guard unsafeDispatch [a] w1)). reflexivity.
Defined.

(* --------------------------------------------------------------------- *)
(* run without a future                                                   *)
(* --------------------------------------------------------------------- *)

Lemma run_falsy (promise : value) (w : world) :
  truthy promise = false -> run promise w = (Return tt, w).
Proof. intros H. unfold run. rewrite H. reflexivity. Qed.

(** C5: when there is no future, nothing changes. run called with a falsy
    argument (null and undefined among them) returns and leaves the whole
    world, the state included, as it was; so does the effect of the first
    useAsync when its callback yields a falsy value without touching the
    world, as the callback of PokemonInfo does for an empty pokemonName;
    and the effect of the second PokemonInfo does not call run then. *)
Theorem no_future_no_change (w : world) :
  (forall promise, truthy promise = false -> run promise w = (Return tt, w)) /\
  (forall pokemonName, truthy pokemonName = false ->
     CallbackHook.useAsync_effect (CallbackHook.asyncCallback pokemonName) w = (Return tt, w)) /\
  (forall pokemonName, truthy pokemonName = false ->
     PokemonInfo_effect pokemonName w = (Return tt, w)).
Proof.
  split; [intros promise H; apply run_falsy, H |].
  split; intros pokemonName H.
  - unfold CallbackHook.useAsync_effect, CallbackHook.asyncCallback, bind.
    rewrite H. reflexivity.
  - unfold PokemonInfo_effect. rewrite H. reflexivity.
Qed.

Lemma no_future_no_change_witness :
  let w := step Commit (PokemonInfo_mount (VStr "")) in
  run VNull w = (Return tt, w) /\
  run VUndefined w = (Return tt, w) /\
  CallbackHook.useAsync_effect (CallbackHook.asyncCallback (VStr "")) w = (Return tt, w) /\
  PokemonInfo_effect (VStr "") w = (Return tt, w).
Proof.
  intros w.
  destruct (no_future_no_change w) as [Hrun [Hcb Heff]].
  split; [apply Hrun; reflexivity |].
  split; [apply Hrun; reflexivity |].
  split; [apply Hcb; reflexivity | apply Heff; reflexivity].
Defined.

(* --------------------------------------------------------------------- *)
(* Counter                                                                *)
(* --------------------------------------------------------------------- *)

Lemma clicks_succ (p : Counter.props) (k : nat) :
  Counter.clicks p (S k) = Counter.increment p (Counter.clicks p k).
Proof. reflexivity. Qed.

(* Up to 2^53 in magnitude every integer is a binary64 number, and the
   rounding keeps it. *)
Lemma round64_exact (x : Z) :
  Z.abs x <= 2 ^ 53 -> Counter.round64 x = Counter.Finite x.
Proof.
  intros Hb.
  destruct (Z.eq_dec (Z.abs x) (2 ^ 53)) as [Heq | Hne].
  - assert (Hx : x = 2 ^ 53 \/ x = - 2 ^ 53) by lia.
    destruct Hx as [-> | ->]; vm_compute; reflexivity.
  - assert (Hlt : Z.abs x < 2 ^ 53) by lia.
    assert (He : Z.max 0 (Z.log2 (Z.abs x) - 52) = 0).
    { destruct (Z.eq_dec (Z.abs x) 0) as [H0 | H0].
      - rewrite H0. reflexivity.
      - assert (Z.log2 (Z.abs x) < 53) by (apply Z.log2_lt_pow2; lia). lia. }
    unfold Counter.round64. rewrite He. simpl Z.eqb. cbv iota.
    rewrite Z.pow_0_r, Z.div_1_r, Z.mul_1_r.
    assert (Hbig : (2 ^ 1024 <=? Z.abs x) = false).
    { apply Z.leb_gt. apply Z.lt_trans with (2 ^ 53); [exact Hlt |].
      apply Z.pow_lt_mono_r; lia. }
    rewrite Hbig. f_equal. rewrite Z.mul_comm. apply Z.abs_sgn.
Qed.

(* The claim C10 as the spec words it fails past 2^53: a Counter that
   starts at 2^53 with step 1 still shows 2^53 after a click, the sum
   2^53 + 1 being no binary64 number. *)
Lemma counter_adds_counterexample :
  let p := Counter.mkProps (Some (Counter.Finite 9007199254740992)) None in
  Counter.countReducer (Counter.Finite 9007199254740992) (Counter.Finite 1)
    = Counter.Finite 9007199254740992 /\
  Counter.clicks p 1 = Counter.Finite 9007199254740992 /\
  Counter.clicks p 1 <> Counter.Finite (9007199254740992 + 1 * 1).
Proof.
  split; [vm_compute; reflexivity |].
  split; [vm_compute; reflexivity |].
  vm_compute. discriminate.
Qed.

Lemma countReducer_exact (c n : Z) :
  Z.abs (c + n) <= 2 ^ 53 ->
  Counter.countReducer (Counter.Finite c) (Counter.Finite n) = Counter.Finite (c + n).
Proof. intros Hb. unfold Counter.countReducer, Counter.add. apply round64_exact, Hb. Qed.

(** C10, amended: in the Counter component the reducer adds the dispatched
    number to the count: for integers c and n with |c| + |n| at most 2^53
    the new count is c + n; so a Counter created with an integer
    initialCount c0 and an integer step s (0 and 1 when left out) shows
    c0 + k*s after k clicks as long as |c0| + k*|s| is at most 2^53, and
    the Counter of App shows k after k clicks for k up to 2^53. *)
Theorem counter_adds_safe_integers (p : Counter.props) (c0 s c n : Z) (k : nat) :
  (Z.abs c + Z.abs n <= 2 ^ 53 ->
     Counter.countReducer (Counter.Finite c) (Counter.Finite n) = Counter.Finite (c + n)) /\
  (Counter.mount p = Counter.Finite c0 ->
   default (Counter.Finite 1) (Counter.step p) = Counter.Finite s ->
   Z.abs c0 + Z.of_nat k * Z.abs s <= 2 ^ 53 ->
     Counter.clicks p k = Counter.Finite (c0 + Z.of_nat k * s)) /\
  (Z.of_nat k <= 2 ^ 53 -> Counter.clicks Counter.App k = Counter.Finite (Z.of_nat k)).
Proof.
  assert (Hclicks : forall q a b, Counter.mount q = Counter.Finite a ->
            default (Counter.Finite 1) (Counter.step q) = Counter.Finite b ->
            forall j, Z.abs a + Z.of_nat j * Z.abs b <= 2 ^ 53 ->
            Counter.clicks q j = Counter.Finite (a + Z.of_nat j * b)).
  { intros q a b Hq Hs j. induction j as [| j IH]; intros Hj.
    - unfold Counter.clicks. simpl. rewrite Hq. f_equal. lia.
    - rewrite Nat2Z.inj_succ, Z.mul_succ_l in Hj |- *.
      assert (Hprod : Z.abs (Z.of_nat j * b) = Z.of_nat j * Z.abs b).
      { rewrite Z.abs_mul. f_equal. apply Z.abs_eq. lia. }
      assert (0 <= Z.of_nat j * Z.abs b) by (apply Z.mul_nonneg_nonneg; lia).
      rewrite clicks_succ, IH by lia.
      unfold Counter.increment. rewrite Hs.
      rewrite countReducer_exact by lia. f_equal. lia. }
  split; [intros Hcn; apply countReducer_exact; lia |].
  split; [intros Hmount Hstep Hb; apply Hclicks; assumption |].
  intros Hk. rewrite (Hclicks Counter.App 0 1) by (reflexivity || lia). f_equal. lia.
Qed.

Lemma counter_adds_safe_integers_witness :
  let p := Counter.mkProps (Some (Counter.Finite 10)) (Some (Counter.Finite (-3))) in
  (Counter.countReducer (Counter.Finite 4) (Counter.Finite (-3)) = Counter.Finite (4 + -3)) /\
  Counter.clicks p 5 = Counter.Finite (10 + Z.of_nat 5 * -3) /\
  Counter.clicks Counter.App 5 = Counter.Finite (Z.of_nat 5).
Proof.
  intros p.
  destruct (counter_adds_safe_integers p 10 (-3) 4 (-3) 5) as (Hadd & Hclicks & Happ).
  split; [apply Hadd; vm_compute; discriminate |].
  split; [apply Hclicks; [reflexivity | reflexivity | vm_compute; discriminate] |].
  apply Happ. vm_compute. discriminate.
Defined.

(* --------------------------------------------------------------------- *)
(* What one event does to the world                                       *)
(* --------------------------------------------------------------------- *)

Lemma dispatch_unmounted (args : list value) (w : world) :
  mountedRef w = false -> dispatch args w = (Return tt, w).
Proof. apply useSafeDispatch_unmounted. Qed.

Lemma dispatch_mounted (action : value) (s' : AsyncState) (w : world) :
  mountedRef w = true ->
  reducer (state w) action = Return s' ->
  dispatch [action] w = (Return tt, set_state s' (set_calls (calls w ++ [[action]]) w)).
Proof.
  intros Hm Hr. unfold dispatch. rewrite useSafeDispatch_mounted by exact Hm.
  apply unsafeDispatch_returns, Hr.
Qed.

(* `then` touches the reactions and the jobs only. *)
Lemma promise_then_frame (promise : value) (w : world) :
  state (snd (promise_then promise w)) = state w /\
  mountedRef (snd (promise_then promise w)) = mountedRef w /\
  calls (snd (promise_then promise w)) = calls w.
Proof.
  destruct promise; simpl; auto.
  unfold bind, gets, modify. simpl. destruct (settled w !! p); simpl; auto.
Qed.

Lemma run_unmounted (promise : value) (w : world) :
  mountedRef w = false -> truthy promise = true ->
  run promise w = promise_then promise w.
Proof.
  intros Hm Ht. unfold run, bind. rewrite Ht. simpl.
  rewrite dispatch_unmounted by exact Hm. reflexivity.
Qed.

Lemma run_mounted (promise : value) (w : world) :
  mountedRef w = true -> truthy promise = true ->
  run promise w
    = promise_then promise
        (set_state pending_state (set_calls (calls w ++ [[pending_action]]) w)).
Proof.
  intros Hm Ht. unfold run, bind. rewrite Ht. simpl.
  rewrite (dispatch_mounted _ pending_state) by (exact Hm || reflexivity).
  reflexivity.
Qed.

Lemma PokemonInfo_effect_truthy (pokemonName : value) (w : world) :
  truthy pokemonName = true ->
  PokemonInfo_effect pokemonName w
    = run (VPromise (next_promise w)) (set_next_promise (S (next_promise w)) w).
Proof. intros Ht. unfold PokemonInfo_effect. rewrite Ht. reflexivity. Qed.

Lemma run_job_dispatch (o : outcome) : run_job o = dispatch [action_of o].
Proof. destruct o; reflexivity. Qed.

Lemma tick_unmounted (w : world) (o : outcome) (rest : list outcome) :
  jobs w = o :: rest -> mountedRef w = false -> tick w = set_jobs rest w.
Proof.
  intros Hj Hm. unfold tick. rewrite Hj, run_job_dispatch.
  rewrite dispatch_unmounted by exact Hm. reflexivity.
Qed.

Lemma tick_mounted (w : world) (o : outcome) (rest : list outcome) :
  jobs w = o :: rest -> mountedRef w = true ->
  tick w = set_state (state_of o) (set_calls (calls w ++ [[action_of o]]) (set_jobs rest w)).
Proof.
  intros Hj Hm. unfold tick. rewrite Hj, run_job_dispatch.
  rewrite (dispatch_mounted _ (state_of o)) by (exact Hm || apply reducer_action_of).
  reflexivity.
Qed.

Lemma tick_idle (w : world) : jobs w = [] -> tick w = w.
Proof. intros Hj. unfold tick. rewrite Hj. reflexivity. Qed.

Lemma settle_frame (p : nat) (o : outcome) (w : world) :
  state (settle p o w) = state w /\
  mountedRef (settle p o w) = mountedRef w /\
  calls (settle p o w) = calls w.
Proof. unfold settle. destruct (settled w !! p); simpl; auto. Qed.

Lemma run_writes (promise : value) (w : world) :
  step_writes w (CallRun promise).
Proof.
  destruct (truthy promise) eqn:Ht.
  - destruct (mountedRef w) eqn:Hm.
    + apply writes_pending; try assumption; simpl; rewrite run_mounted by assumption.
      * apply promise_then_frame.
      * apply promise_then_frame.
    + apply writes_nothing; simpl; rewrite run_unmounted by assumption;
        apply promise_then_frame.
  - apply writes_nothing; simpl; rewrite run_falsy by assumption; reflexivity.
Qed.

Lemma step_cases (e : event) (w : world) : step_writes w e.
Proof.
  destruct e as [ | | promise | pokemonName | p o | ].
  - apply writes_nothing; reflexivity.
  - apply writes_nothing; reflexivity.
  - apply run_writes.
  - destruct (truthy pokemonName) eqn:Ht.
    + pose (w' := set_next_promise (S (next_promise w)) w).
      destruct (run_writes (VPromise (next_promise w)) w') as [Hs Hc | Hm _ Hs Hc | o rest _ He].
      * apply writes_nothing; simpl; rewrite PokemonInfo_effect_truthy by exact Ht;
          [exact Hs | exact Hc].
      * apply writes_pending; try assumption; simpl;
          rewrite PokemonInfo_effect_truthy by exact Ht; [exact Hs | exact Hc].
      * discriminate He.
    + apply writes_nothing; simpl; unfold PokemonInfo_effect; rewrite Ht; reflexivity.
  - apply writes_nothing; simpl; apply settle_frame.
  - destruct (jobs w) as [| o rest] eqn:Hj.
    + apply writes_nothing; simpl; rewrite tick_idle by exact Hj; reflexivity.
    + destruct (mountedRef w) eqn:Hm.
      * apply (writes_settlement w Tick o rest); try assumption; try reflexivity;
          simpl; rewrite (tick_mounted w o rest) by assumption; reflexivity.
      * apply writes_nothing; simpl; rewrite (tick_unmounted w o rest) by assumption;
          reflexivity.
Qed.

(* Only Commit sets mountedRef. *)
Lemma step_stays_unmounted (e : event) (w : world) :
  mountedRef w = false -> e <> Commit -> mountedRef (step e w) = false.
Proof.
  intros Hm Hne. destruct e as [ | | promise | pokemonName | p o | ]; simpl.
  - congruence.
  - reflexivity.
  - destruct (truthy promise) eqn:Ht.
    + rewrite run_unmounted by assumption.
      rewrite (proj1 (proj2 (promise_then_frame _ _))). exact Hm.
    + rewrite run_falsy by assumption. exact Hm.
  - destruct (truthy pokemonName) eqn:Ht.
    + rewrite PokemonInfo_effect_truthy by exact Ht.
      rewrite run_unmounted by (assumption || reflexivity).
      rewrite (proj1 (proj2 (promise_then_frame _ _))). exact Hm.
    + unfold PokemonInfo_effect. rewrite Ht. exact Hm.
  - rewrite (proj1 (proj2 (settle_frame _ _ _))). exact Hm.
  - destruct (jobs w) as [| o rest] eqn:Hj.
    + rewrite tick_idle by exact Hj. exact Hm.
    + rewrite (tick_unmounted w o rest) by assumption. exact Hm.
Qed.

(* --------------------------------------------------------------------- *)
(* After teardown                                                         *)
(* --------------------------------------------------------------------- *)

Lemma unmounted_step_frozen (e : event) (w : world) :
  mountedRef w = false -> state (step e w) = state w /\ calls (step e w) = calls w.
Proof.
  intros Hm. destruct (step_cases e w) as [Hs Hc | Hm' | o rest Hm'].
  - split; assumption.
  - congruence.
  - congruence.
Qed.

Lemma unmounted_frozen (es : list event) :
  forall w, mountedRef w = false -> no_commit es = true ->
    state (exec es w) = state w /\ calls (exec es w) = calls w.
Proof.
  induction es as [| e es IH]; intros w Hm Hnc; [split; reflexivity |].
  simpl in Hnc. apply andb_prop in Hnc as [He Hnc].
  assert (Hne : e <> Commit) by (intros ->; discriminate He).
  destruct (unmounted_step_frozen e w Hm) as [Hs Hc].
  simpl. destruct (IH (step e w) (step_stays_unmounted e w Hm Hne) Hnc) as [Hs' Hc'].
  split; congruence.
Qed.

(** C2: after teardown, that is once the cleanup of useSafeDispatch has
    set mountedRef to false and the effect does not run again, no event
    changes the state: whatever runs are called, promises settle or jobs
    run afterwards, the state stays the one at teardown and the underlying
    dispatch is not called once more. *)
Theorem teardown_freezes_state (w : world) (es : list event) :
  no_commit es = true ->
  mountedRef (step Cleanup w) = false /\
  state (exec es (step Cleanup w)) = state w /\
  calls (exec es (step Cleanup w)) = calls w.
Proof.
  intros Hnc. split; [reflexivity |].
  apply (unmounted_frozen es (step Cleanup w)); [reflexivity | exact Hnc].
Qed.

Lemma teardown_freezes_state_witness :
  let w := exec [Commit; Effect (VStr "pikachu")] (PokemonInfo_mount (VStr "")) in
  let es := [Settle 0 (Fulfilled (VObj [("name", VStr "pikachu")])); Tick] in
  state w = pending_state /\
  mountedRef (step Cleanup w) = false /\
  state (exec es (step Cleanup w)) = state w /\
  calls (exec es (step Cleanup w)) = calls w.
Proof.
  intros w es. split; [reflexivity |].
  apply (teardown_freezes_state w es). reflexivity.
Defined.

(* --------------------------------------------------------------------- *)
(* One variant at a time                                                  *)
(* --------------------------------------------------------------------- *)

Lemma well_formed_state_of (o : outcome) : well_formed (state_of o) = true.
Proof. destruct o; reflexivity. Qed.

Lemma step_well_formed (e : event) (w : world) :
  well_formed (state w) = true -> well_formed (state (step e w)) = true.
Proof.
  intros Hwf. destruct (step_cases e w) as [Hs _ | _ _ Hs _ | o rest _ _ _ Hs _]; rewrite Hs.
  - exact Hwf.
  - reflexivity.
  - apply well_formed_state_of.
Qed.

Lemma exec_well_formed (es : list event) :
  forall w, well_formed (state w) = true -> well_formed (state (exec es w)) = true.
Proof.
  induction es as [| e es IH]; intros w Hwf; [exact Hwf |].
  simpl. apply IH, step_well_formed, Hwf.
Qed.

Lemma PokemonInfo_mount_well_formed (pokemonName : value) :
  well_formed (state (PokemonInfo_mount pokemonName)) = true.
Proof. simpl. destruct (truthy pokemonName); reflexivity. Qed.

Lemma is_null_true (v : value) : is_null v = true <-> v = VNull.
Proof. destruct v; simpl; split; congruence. Qed.

Lemma well_formed_variant (s : AsyncState) :
  well_formed s = true -> one_variant s.
Proof.
  unfold well_formed, one_variant. intros H.
  destruct (variant_of s) as [v |]; [| discriminate H].
  exists v. split; [reflexivity |].
  destruct v; try apply andb_prop in H as [Hd He];
    rewrite ?is_null_true in *; split; intros Hn; congruence.
Qed.

(* Whatever the action, a state the reducer returns is one variant. *)
Lemma reducer_well_formed (s s' : AsyncState) (action : value) :
  reducer s action = Return s' -> well_formed s' = true.
Proof.
  unfold reducer. destruct (get_prop action "type") as [type | e]; simpl; [| discriminate].
  destruct (is_str type "pending"); [intros [= <-]; reflexivity |].
  destruct (is_str type "resolved").
  { destruct (get_prop action "data"); simpl; [intros [= <-]; reflexivity | discriminate]. }
  destruct (is_str type "rejected");
    [| destruct (converts_to_string type); discriminate].
  destruct (get_prop action "error"); simpl; [intros [= <-]; reflexivity | discriminate].
Qed.

Lemma dispatch_well_formed (args : list value) (w : world) :
  well_formed (state w) = true -> well_formed (state (snd (dispatch args w))) = true.
Proof.
  intros Hwf. unfold dispatch, useSafeDispatch, bind, gets, ret.
  destruct (mountedRef w); [| exact Hwf].
  unfold unsafeDispatch, bind, modify, gets, throw. simpl.
  destruct (reducer (state w) (hd VUndefined args)) as [s' | e] eqn:Hr; simpl.
  - apply (reducer_well_formed (state w) s' _ Hr).
  - exact Hwf.
Qed.

(** C6: every state PokemonInfo can reach, by any sequence of events (run
    calls with any argument, effects, cleanups, settlements, jobs), has a
    status that is one of 'idle', 'pending', 'resolved' and 'rejected',
    with data other than null in the resolved state only and error other
    than null in the rejected state only; and so has the state after any
    action is dispatched from there. *)
Theorem reachable_state_one_variant
    (pokemonName : value) (es : list event) (args : list value) :
  let w := exec es (PokemonInfo_mount pokemonName) in
  one_variant (state w) /\ one_variant (state (snd (dispatch args w))).
Proof.
  intros w.
  assert (Hwf : well_formed (state w) = true)
    by apply exec_well_formed, PokemonInfo_mount_well_formed.
  split; apply well_formed_variant; [exact Hwf | apply dispatch_well_formed, Hwf].
Qed.

(* On such a state the render of PokemonInfo never reaches its last
   throw. *)
Lemma render_never_impossible (pokemonName : value) (s : AsyncState) :
  well_formed s = true ->
  PokemonInfo_render pokemonName s <> inr (ThrowExn (Error "This should be impossible")).
Proof.
  unfold well_formed, variant_of, PokemonInfo_render. intros H.
  destruct (is_str (status s) "idle"); simpl; [discriminate |].
  destruct (truthy pokemonName); simpl; [| discriminate].
  destruct (is_str (status s) "pending"); [discriminate |].
  destruct (is_str (status s) "resolved") eqn:Hres.
  - destruct (is_str (status s) "rejected"); discriminate.
  - destruct (is_str (status s) "rejected"); [discriminate | discriminate H].
Qed.

(* --------------------------------------------------------------------- *)
(* One run, from the call to the settlement                               *)
(* --------------------------------------------------------------------- *)

Lemma quiet_inv (w : world) : quiet w = true -> reactions w = [] /\ jobs w = [].
Proof.
  unfold quiet. destruct (reactions w); [| discriminate].
  destruct (jobs w); [auto | discriminate].
Qed.

(* A run on a mounted component with a promise that has not settled. *)
Lemma run_registers (p : nat) (w : world) :
  mountedRef w = true -> settled w !! p = None ->
  step (CallRun (VPromise p)) w
    = set_reactions (reactions w ++ [p])
        (set_state pending_state (set_calls (calls w ++ [[pending_action]]) w)).
Proof.
  intros Hm Hs. simpl. rewrite run_mounted by (exact Hm || reflexivity).
  unfold promise_then, bind, gets, modify. simpl. rewrite Hs. reflexivity.
Qed.

(* The settlement of the one promise that is waited for. *)
Lemma settle_only_reaction (p : nat) (o : outcome) (w : world) :
  settled w !! p = None -> reactions w = [p] ->
  settle p o w
    = set_settled (<[p := o]> (settled w)) (set_reactions [] (set_jobs (jobs w ++ [o]) w)).
Proof.
  intros Hs Hr. unfold settle. rewrite Hs, Hr.
  rewrite !filter_cons, !filter_nil.
  destruct (decide (p = p)) as [_ | Hne]; [| congruence].
  destruct (decide (p ≠ p)) as [Hne | _]; [congruence |].
  reflexivity.
Qed.

(* The claim C1 as the spec words it fails on this run: the component is
   torn down while the fetch is in flight, the future is fulfilled and
   its job runs, and the state is still Pending. *)
Lemma run_settles_counterexample :
  let pikachu := VObj [("name", VStr "pikachu")] in
  let es := [Commit; Effect (VStr "pikachu"); Cleanup; Settle 0 (Fulfilled pikachu); Tick] in
  observed es (PokemonInfo_mount (VStr ""))
    = [idle_state; pending_state; pending_state; pending_state; pending_state] /\
  state (exec es (PokemonInfo_mount (VStr ""))) <> state_of (Fulfilled pikachu).
Proof. split; [reflexivity | discriminate]. Qed.

(** C1, amended: for every call run(p) with p a future, made while
    mountedRef is true, the state becomes Pending (status 'pending', data
    null, error null) at once; whenever the job of a settlement runs while
    mountedRef is true, the state becomes Resolved with the fulfilment
    value as data, or Rejected with the rejection value as error; and when
    p had not settled and nothing else was in flight, the states after the
    call, after the settlement and after its job are Pending, Pending and
    the settled state. *)
Theorem run_pending_then_settled (w : world) (p : nat) (o : outcome) :
  mountedRef w = true ->
  state (step (CallRun (VPromise p)) w) = pending_state /\
  (forall w' rest, mountedRef w' = true -> jobs w' = o :: rest ->
     state (step Tick w') = state_of o) /\
  (settled w !! p = None -> quiet w = true ->
     observed [CallRun (VPromise p); Settle p o; Tick] w
       = [pending_state; pending_state; state_of o]).
Proof.
  intros Hm. split; [| split].
  - simpl. rewrite run_mounted by (exact Hm || reflexivity). apply promise_then_frame.
  - intros w' rest Hm' Hj. simpl. rewrite (tick_mounted w' o rest) by assumption. reflexivity.
  - intros Hs Hq. apply quiet_inv in Hq as [Hr Hj].
    unfold observed. rewrite (run_registers p w Hm Hs). rewrite Hr. simpl.
    rewrite settle_only_reaction by (simpl; assumption || reflexivity).
    simpl. rewrite Hj. simpl.
    match goal with |- context [tick ?x] =>
      rewrite (tick_mounted x o []) by (simpl; assumption || reflexivity) end.
    reflexivity.
Qed.

Lemma run_pending_then_settled_witness :
  let pikachu := VObj [("name", VStr "pikachu")] in
  let w := step Commit (PokemonInfo_mount (VStr "")) in
  state w = idle_state /\
  (observed [CallRun (VPromise 0); Settle 0 (Fulfilled pikachu); Tick] w
     = [pending_state; pending_state;
        {| status := VStr "resolved"; data := pikachu; error := VNull |}]) /\
  (observed [CallRun (VPromise 0); Settle 0 (Rejected (VStr "not found")); Tick] w
     = [pending_state; pending_state;
        {| status := VStr "rejected"; data := VNull; error := VStr "not found" |}]).
Proof.
  intros pikachu w. split; [reflexivity |]. split.
  - apply (run_pending_then_settled w 0%nat (Fulfilled pikachu)); reflexivity.
  - apply (run_pending_then_settled w 0%nat (Rejected (VStr "not found"))); reflexivity.
Defined.

(* --------------------------------------------------------------------- *)
(* Overlapping runs                                                       *)
(* --------------------------------------------------------------------- *)







(* --------------------------------------------------------------------- *)
(* The transitions between variants                                       *)
(* --------------------------------------------------------------------- *)

(* The claim C7 as the spec words it fails when two runs overlap: the
   first fetch is fulfilled and the second rejected, and the state goes
   from Resolved to Rejected, a transition the spec does not list. *)
Lemma listed_transitions_counterexample :
  let pikachu := VObj [("name", VStr "pikachu")] in
  let es := [Commit; Effect (VStr "pikachu"); Effect (VStr "zzz");
             Settle 0 (Fulfilled pikachu); Tick] in
  let last := [Settle 1 (Rejected (VStr "not found")); Tick] in
  variant_of (state (exec es (PokemonInfo_mount (VStr "")))) = Some Resolved /\
  variant_of (state (exec (es ++ last) (PokemonInfo_mount (VStr "")))) = Some RejectedWith /\
  listed Resolved RejectedWith = false /\
  transitions_ok (es ++ last) (PokemonInfo_mount (VStr "")) = false.
Proof. repeat split; reflexivity. Qed.

Lemma well_formed_has_variant (s : AsyncState) :
  well_formed s = true -> exists v, variant_of s = Some v.
Proof.
  intros H. destruct (well_formed_variant s H) as (v & Hv & _). exists v. exact Hv.
Qed.

Lemma transition_ok_refl (s : AsyncState) :
  well_formed s = true -> transition_ok s s = true.
Proof.
  intros H. destruct (well_formed_has_variant s H) as [v Hv].
  unfold transition_ok. rewrite Hv. destruct v; reflexivity.
Qed.

Lemma transition_ok_to_pending (s : AsyncState) :
  well_formed s = true -> transition_ok s pending_state = true.
Proof.
  intros H. destruct (well_formed_has_variant s H) as [v Hv].
  unfold transition_ok. rewrite Hv. destruct v; reflexivity.
Qed.

Lemma transition_ok_settled (o : outcome) :
  transition_ok pending_state (state_of o) = true.
Proof. destruct o; reflexivity. Qed.

(* A run on a quiet mounted component leaves one reaction or job at
   most, in the Pending state. *)
Lemma run_one_in_flight (promise : value) (w : world) :
  mountedRef w = true -> truthy promise = true -> quiet w = true ->
  state (snd (run promise w)) = pending_state /\ one_in_flight (snd (run promise w)).
Proof.
  intros Hm Ht Hq. apply quiet_inv in Hq as [Hr Hj].
  rewrite run_mounted by assumption.
  split; [apply promise_then_frame |].
  unfold one_in_flight.
  destruct promise; try solve [left; simpl; auto].
  unfold promise_then, bind, gets, modify. simpl.
  destruct (settled w !! p) as [o |]; right; simpl; rewrite ?Hr, ?Hj;
    (split; [reflexivity |]).
  - right. exists o. split; reflexivity.
  - left. exists p. split; reflexivity.
Qed.

Lemma settle_one_in_flight (p : nat) (o : outcome) (w : world) :
  one_in_flight w -> one_in_flight (settle p o w).
Proof.
  intros Hone. unfold settle. destruct (settled w !! p); [exact Hone |].
  unfold one_in_flight in *.
  destruct Hone as [[Hr Hj] | [Hs [[q [Hr Hj]] | [o' [Hr Hj]]]]].
  - left. simpl. rewrite Hr, Hj. auto.
  - right. simpl. rewrite Hr, Hj. split; [exact Hs |].
    rewrite !filter_cons, !filter_nil.
    destruct (decide (q = p)) as [Heq | Hne].
    + rewrite decide_False by (intros Hc; apply Hc, Heq).
      right. exists o. auto.
    + rewrite decide_True by exact Hne.
      left. exists q. auto.
  - right. simpl. rewrite Hr, Hj. split; [exact Hs |].
    right. exists o'. auto.
Qed.

Lemma tick_one_in_flight (w : world) :
  well_formed (state w) = true -> one_in_flight w ->
  transition_ok (state w) (state (tick w)) = true /\ one_in_flight (tick w).
Proof.
  intros Hwf Hone. unfold one_in_flight in *.
  destruct Hone as [[Hr Hj] | [Hs [[q [Hr Hj]] | [o [Hr Hj]]]]].
  - rewrite tick_idle by exact Hj. split; [apply transition_ok_refl, Hwf | left; auto].
  - rewrite tick_idle by exact Hj.
    split; [apply transition_ok_refl, Hwf |]. right. split; [exact Hs |]. left. exists q. auto.
  - destruct (mountedRef w) eqn:Hm.
    + rewrite (tick_mounted w o []) by assumption. simpl. rewrite Hs.
      split; [apply transition_ok_settled | left; auto].
    + rewrite (tick_unmounted w o []) by assumption. simpl.
      split; [apply transition_ok_refl, Hwf | left; auto].
Qed.

Lemma serial_step (e : event) (w : world) :
  well_formed (state w) = true -> one_in_flight w ->
  (if starts_run e then mountedRef w && quiet w else true) = true ->
  transition_ok (state w) (state (step e w)) = true /\ one_in_flight (step e w).
Proof.
  intros Hwf Hone Hser.
  destruct e as [ | | promise | pokemonName | p o | ]; simpl in Hser |- *.
  - split; [apply transition_ok_refl, Hwf | exact Hone].
  - split; [apply transition_ok_refl, Hwf | exact Hone].
  - destruct (truthy promise) eqn:Ht.
    + apply andb_prop in Hser as [Hm Hq].
      destruct (run_one_in_flight promise w Hm Ht Hq) as [Hs Hone'].
      rewrite Hs. split; [apply transition_ok_to_pending, Hwf | exact Hone'].
    + rewrite run_falsy by exact Ht.
      split; [apply transition_ok_refl, Hwf | exact Hone].
  - destruct (truthy pokemonName) eqn:Ht.
    + apply andb_prop in Hser as [Hm Hq].
      rewrite PokemonInfo_effect_truthy by exact Ht.
      destruct (run_one_in_flight (VPromise (next_promise w))
                  (set_next_promise (S (next_promise w)) w) Hm eq_refl Hq) as [Hs Hone'].
      rewrite Hs. split; [apply transition_ok_to_pending, Hwf | exact Hone'].
    + unfold PokemonInfo_effect. rewrite Ht.
      split; [apply transition_ok_refl, Hwf | exact Hone].
  - rewrite (proj1 (settle_frame p o w)).
    split; [apply transition_ok_refl, Hwf | apply settle_one_in_flight, Hone].
  - apply tick_one_in_flight; assumption.
Qed.

Lemma serial_transitions_ok (es : list event) :
  forall w, well_formed (state w) = true -> one_in_flight w ->
    serial es w = true -> transitions_ok es w = true.
Proof.
  induction es as [| e es IH]; intros w Hwf Hone Hser; [reflexivity |].
  simpl in Hser. apply andb_prop in Hser as [He Hser].
  destruct (serial_step e w Hwf Hone He) as [Hok Hone'].
  simpl. rewrite Hok. simpl.
  apply IH; [apply step_well_formed, Hwf | exact Hone' | exact Hser].
Qed.

(** C7, amended: when runs do not overlap, that is when every run starts
    on a mounted component with no reaction waiting and no job queued,
    every event of PokemonInfo either keeps the variant of the state or
    takes one of the listed transitions: from Idle, Resolved or Rejected
    into Pending, or from Pending into Resolved or Rejected. *)
Theorem serial_runs_listed_transitions (pokemonName : value) (es : list event) :
  serial es (PokemonInfo_mount pokemonName) = true ->
  transitions_ok es (PokemonInfo_mount pokemonName) = true.
Proof.
  apply serial_transitions_ok.
  - apply PokemonInfo_mount_well_formed.
  - left. split; reflexivity.
Qed.

Lemma serial_runs_listed_transitions_witness :
  let pikachu := VObj [("name", VStr "pikachu")] in
  let es := [Commit; Effect (VStr "pikachu"); Settle 0 (Fulfilled pikachu); Tick;
             Effect (VStr "zzz"); Settle 1 (Rejected (VStr "not found")); Tick;
             Cleanup] in
  serial es (PokemonInfo_mount (VStr "")) = true /\
  transitions_ok es (PokemonInfo_mount (VStr "")) = true.
Proof.
  intros pikachu es. split; [reflexivity |].
  apply (serial_runs_listed_transitions (VStr "") es). reflexivity.
Defined.

(* ===================================================================== *)
(* Further properties of the two files                                    *)
(* ===================================================================== *)

(* --------------------------------------------------------------------- *)
(* The initial state of useAsync                                          *)
(* --------------------------------------------------------------------- *)

Lemma lookup_prop_app (k : string) (l1 l2 : list (string * value)) :
  lookup_prop k (l1 ++ l2)%list
    = match lookup_prop k l2 with
      | Some v => Some v
      | None => lookup_prop k l1
      end.
Proof.
  induction l1 as [| [k' v] l1 IH]; simpl.
  - destruct (lookup_prop k l2); reflexivity.
  - rewrite IH. destruct (lookup_prop k l2); reflexivity.
Qed.

(** X1: useAsync starts from {data: null, error: null, status: 'idle'}
    with each of the three properties replaced by the one initialStatus
    has under that name, when it has one (the last one, when it has
    several); an initialStatus that is no object changes nothing. *)
Theorem initial_state_overrides (initialStatus : value) :
  status (initial_state initialStatus)
    = default (VStr "idle") (lookup_prop "status" (spread initialStatus)) /\
  data (initial_state initialStatus)
    = default VNull (lookup_prop "data" (spread initialStatus)) /\
  error (initial_state initialStatus)
    = default VNull (lookup_prop "error" (spread initialStatus)) /\
  (spread initialStatus = [] -> initial_state initialStatus = idle_state).
Proof.
  unfold initial_state. simpl status. simpl data. simpl error.
  rewrite !lookup_prop_app.
  repeat split; try (destruct (lookup_prop _ (spread initialStatus)); reflexivity).
  intros ->. reflexivity.
Qed.

Lemma initial_state_overrides_witness :
  initial_state VUndefined = idle_state.
Proof.
  apply (initial_state_overrides VUndefined). reflexivity.
Defined.

(* --------------------------------------------------------------------- *)
(* What PokemonInfo renders                                               *)
(* --------------------------------------------------------------------- *)

(** X2: on its first render, before any effect has run, PokemonInfo shows
    the loading fallback for pokemonName when the name is truthy and the
    prompt when it is not: the initialStatus it passes makes the state
    Pending from the start for a truthy name. *)
Theorem first_render_follows_name (pokemonName : value) :
  PokemonInfo_render pokemonName (state (PokemonInfo_mount pokemonName))
    = if truthy pokemonName
      then inl (PokemonInfoFallback pokemonName)
      else inl SubmitAPokemon.
Proof.
  unfold PokemonInfo_render, PokemonInfo_mount. simpl.
  destruct (truthy pokemonName); reflexivity.
Qed.

Lemma render_throws_rejected (pokemonName : value) (s : AsyncState) (t : thrown) :
  well_formed s = true ->
  PokemonInfo_render pokemonName s = inr t ->
  t = ThrowValue (error s) /\ variant_of s = Some RejectedWith /\ truthy pokemonName = true.
Proof.
  intros Hwf Hr.
  pose proof (render_never_impossible pokemonName s Hwf) as Himp.
  unfold PokemonInfo_render in Hr, Himp. unfold variant_of.
  destruct (is_str (status s) "idle"); simpl in Hr, Himp; [discriminate Hr |].
  destruct (truthy pokemonName); simpl in Hr, Himp; [| discriminate Hr].
  destruct (is_str (status s) "pending"); [discriminate Hr |].
  destruct (is_str (status s) "rejected") eqn:Hrej.
  - injection Hr as <-. apply is_str_true in Hrej. rewrite Hrej. auto.
  - destruct (is_str (status s) "resolved"); [discriminate Hr | congruence].
Qed.

(** X3: on every state PokemonInfo can reach, with any name, its render
    throws only in the Rejected state and only for a truthy name, and what
    it throws is the stored error: the last line,
    Error('This should be impossible'), is never reached. *)
Theorem render_throws_only_rejection
    (pokemonName0 pokemonName : value) (es : list event) (t : thrown) :
  let s := state (exec es (PokemonInfo_mount pokemonName0)) in
  PokemonInfo_render pokemonName s = inr t ->
  t = ThrowValue (error s) /\ variant_of s = Some RejectedWith /\ truthy pokemonName = true.
Proof.
  intros s. apply render_throws_rejected.
  apply exec_well_formed, PokemonInfo_mount_well_formed.
Qed.

Lemma render_throws_only_rejection_witness :
  let es := [Commit; Effect (VStr "zzz"); Settle 0 (Rejected (VStr "not found")); Tick] in
  let s := state (exec es (PokemonInfo_mount (VStr ""))) in
  ThrowValue (VStr "not found") = ThrowValue (error s) /\
  variant_of s = Some RejectedWith /\ truthy (VStr "zzz") = true.
Proof.
  intros es s.
  apply (render_throws_only_rejection (VStr "") (VStr "zzz") es (ThrowValue (VStr "not found"))).
  reflexivity.
Defined.

(** X4: when the job of a settlement runs on a mounted component, the
    next render of PokemonInfo with a truthy name shows the data view of
    the fulfilment value, or throws the rejection value to the error
    boundary. *)
Theorem settlement_reaches_render
    (pokemonName : value) (w : world) (o : outcome) (rest : list outcome) :
  mountedRef w = true -> jobs w = o :: rest -> truthy pokemonName = true ->
  PokemonInfo_render pokemonName (state (step Tick w))
    = match o with
      | Fulfilled d => inl (PokemonDataView d)
      | Rejected e => inr (ThrowValue e)
      end.
Proof.
  intros Hm Hj Ht. simpl. rewrite (tick_mounted w o rest) by assumption.
  unfold PokemonInfo_render. simpl. rewrite Ht. destruct o; reflexivity.
Qed.

Lemma settlement_reaches_render_witness :
  let pikachu := VObj [("name", VStr "pikachu")] in
  let w := exec [Commit; Effect (VStr "pikachu"); Settle 0 (Fulfilled pikachu)]
             (PokemonInfo_mount (VStr "")) in
  PokemonInfo_render (VStr "pikachu") (state (step Tick w)) = inl (PokemonDataView pikachu).
Proof.
  intros pikachu w.
  apply (settlement_reaches_render (VStr "pikachu") w (Fulfilled pikachu) []); reflexivity.
Defined.

(** X5: on a fresh App (pokemonName '') PokemonInfo mounts Idle, shows the
    prompt and starts no fetch; after handleSubmit with a truthy name the
    render that comes before the effect still shows the prompt, the state
    being Idle, and once the effect has run exactly one fetch is waited
    for and the render shows the loading fallback for that name; after
    handleReset the prompt is shown whatever the state is, a Rejected one
    included, and the effect leaves the world as it is. *)
Theorem submit_flow (name : value) (s : AsyncState) (w' : world) :
  truthy name = true ->
  let w := exec [Commit; Effect PokemonApp.initial] (PokemonInfo_mount PokemonApp.initial) in
  let submitted := PokemonApp.handleSubmit name PokemonApp.initial in
  state w = idle_state /\ reactions w = [] /\
  PokemonInfo_render PokemonApp.initial (state w) = inl SubmitAPokemon /\
  PokemonInfo_render submitted (state w) = inl SubmitAPokemon /\
  reactions (step (Effect submitted) w) = [0%nat] /\
  PokemonInfo_render submitted (state (step (Effect submitted) w))
    = inl (PokemonInfoFallback name) /\
  PokemonInfo_render (PokemonApp.handleReset submitted) s = inl SubmitAPokemon /\
  step (Effect (PokemonApp.handleReset submitted)) w' = w'.
Proof.
  intros Ht w submitted. subst w submitted. unfold PokemonApp.handleSubmit.
  repeat split; try reflexivity.
  - simpl. rewrite PokemonInfo_effect_truthy by exact Ht. reflexivity.
  - simpl. rewrite PokemonInfo_effect_truthy by exact Ht.
    unfold PokemonInfo_render. simpl. rewrite Ht. reflexivity.
  - unfold PokemonInfo_render, PokemonApp.handleReset. simpl.
    destruct (is_str (status s) "idle"); reflexivity.
Qed.

Lemma submit_flow_witness :
  let w := exec [Commit; Effect PokemonApp.initial] (PokemonInfo_mount PokemonApp.initial) in
  let rejected := state_of (Rejected (VStr "not found")) in
  reactions (step (Effect (VStr "pikachu")) w) = [0%nat] /\
  PokemonInfo_render (VStr "pikachu") (state (step (Effect (VStr "pikachu")) w))
    = inl (PokemonInfoFallback (VStr "pikachu")) /\
  PokemonInfo_render (PokemonApp.handleReset (VStr "pikachu")) rejected = inl SubmitAPokemon.
Proof.
  intros w rejected.
  destruct (submit_flow (VStr "pikachu") rejected w eq_refl)
    as (_ & _ & _ & _ & Hr & Hv & Hreset & _).
  split; [exact Hr | split; [exact Hv | exact Hreset]].
Defined.

(* --------------------------------------------------------------------- *)
(* The first listing against the second                                   *)
(* --------------------------------------------------------------------- *)

(** X6: while mountedRef is true the two listings do the same: the effect
    of the first useAsync with the callback of PokemonInfo is the effect
    of the second PokemonInfo, result and world alike, and the handlers
    the first passes to `then` are those of run. *)
Theorem listings_agree_while_mounted (pokemonName : value) (o : outcome) (w : world) :
  mountedRef w = true ->
  CallbackHook.useAsync_effect (CallbackHook.asyncCallback pokemonName) w
    = PokemonInfo_effect pokemonName w /\
  CallbackLoop.run_job o w = run_job o w.
Proof.
  intros Hm. split.
  - unfold CallbackHook.useAsync_effect, CallbackHook.asyncCallback, PokemonInfo_effect.
    destruct (truthy pokemonName); simpl; [| reflexivity].
    unfold bind at 1. unfold fetchPokemon, bind, gets, modify, ret. simpl.
    unfold run. simpl. unfold bind, dispatch, useSafeDispatch, bind, gets. simpl.
    rewrite Hm. reflexivity.
  - destruct o; simpl;
      unfold CallbackHook.onFulfilled, CallbackHook.onRejected, onFulfilled, onRejected,
        dispatch, useSafeDispatch, bind, gets; rewrite Hm; reflexivity.
Qed.

Lemma listings_agree_while_mounted_witness :
  let w := step Commit (PokemonInfo_mount (VStr "")) in
  CallbackHook.useAsync_effect (CallbackHook.asyncCallback (VStr "pikachu")) w
    = PokemonInfo_effect (VStr "pikachu") w /\
  CallbackLoop.run_job (Rejected (VStr "not found")) w
    = run_job (Rejected (VStr "not found")) w.
Proof.
  intros w.
  apply (listings_agree_while_mounted (VStr "pikachu") (Rejected (VStr "not found")) w).
  reflexivity.
Defined.

(** X7: the first listing has no mount guard: whatever mountedRef is, its
    effect with a truthy name calls React's dispatch with the 'pending'
    action and the handler of a settlement calls it with the action of
    the settlement; with mountedRef false the second listing makes neither
    call. *)
Theorem callback_listing_unguarded
    (pokemonName : value) (w : world) (o : outcome) (rest : list outcome) :
  truthy pokemonName = true -> jobs w = o :: rest ->
  calls (CallbackLoop.effect pokemonName w) = (calls w ++ [[pending_action]])%list /\
  calls (CallbackLoop.tick w) = (calls w ++ [[action_of o]])%list /\
  (mountedRef w = false ->
     calls (step (Effect pokemonName) w) = calls w /\ calls (step Tick w) = calls w).
Proof.
  intros Ht Hj. split; [| split].
  - unfold CallbackLoop.effect, CallbackHook.useAsync_effect, CallbackHook.asyncCallback.
    rewrite Ht. simpl. unfold bind at 1. unfold fetchPokemon, bind, gets, modify, ret.
    cbn [negb truthy]. rewrite (unsafeDispatch_returns _ pending_state) by reflexivity.
    apply promise_then_frame.
  - unfold CallbackLoop.tick. rewrite Hj.
    assert (Hjob : CallbackLoop.run_job o = unsafeDispatch [action_of o])
      by (destruct o; reflexivity).
    rewrite Hjob. apply (unsafeDispatch_calls [action_of o] (set_jobs rest w)).
  - intros Hm. split; apply unmounted_step_frozen, Hm.
Qed.

Lemma callback_listing_unguarded_witness :
  let pikachu := VObj [("name", VStr "pikachu")] in
  let w := settle 0 (Fulfilled pikachu)
             (CallbackLoop.effect (VStr "pikachu") (PokemonInfo_mount (VStr ""))) in
  calls (CallbackLoop.effect (VStr "pikachu") w) = (calls w ++ [[pending_action]])%list /\
  calls (CallbackLoop.tick w) = (calls w ++ [[action_of (Fulfilled pikachu)]])%list /\
  calls (step (Effect (VStr "pikachu")) w) = calls w /\
  calls (step Tick w) = calls w.
Proof.
  intros pikachu w.
  destruct (callback_listing_unguarded (VStr "pikachu") w (Fulfilled pikachu) [])
    as (He & Ht & Hsecond); try reflexivity.
  split; [exact He | split; [exact Ht | apply Hsecond; reflexivity]].
Defined.

(* --------------------------------------------------------------------- *)
(* What the hook never does                                               *)
(* --------------------------------------------------------------------- *)

Lemma step_not_idle (e : event) (w : world) :
  variant_of (state w) <> Some Idle -> variant_of (state (step e w)) <> Some Idle.
Proof.
  intros Hn. destruct (step_cases e w) as [Hs _ | _ _ Hs _ | o rest _ _ _ Hs _]; rewrite Hs.
  - exact Hn.
  - discriminate.
  - destruct o; discriminate.
Qed.

(** X8: nothing brings the state back to Idle: once the state is not Idle,
    it is not Idle after any sequence of events. *)
Theorem idle_never_reentered (w : world) (es : list event) :
  variant_of (state w) <> Some Idle ->
  variant_of (state (exec es w)) <> Some Idle.
Proof.
  revert w. induction es as [| e es IH]; intros w Hn; [exact Hn |].
  simpl. apply IH, step_not_idle, Hn.
Qed.

Lemma idle_never_reentered_witness :
  let w := exec [Commit; Effect (VStr "pikachu")] (PokemonInfo_mount (VStr "")) in
  let es := [Settle 0 (Rejected (VStr "not found")); Tick; Cleanup; Commit; CallRun VNull] in
  variant_of (state (exec es w)) <> Some Idle.
Proof.
  intros w es. apply (idle_never_reentered w es). discriminate.
Defined.

(** X9: run called on a mounted component with a truthy value that is no
    promise dispatches 'pending' first and then throws a TypeError at
    `.then`: the state is Pending, no handler is registered and no job is
    queued, so no settlement will follow. *)
Theorem run_non_promise_stuck_pending (v : value) (w : world) :
  mountedRef w = true -> truthy v = true -> (forall p, v <> VPromise p) ->
  run v w
    = (Throw (TypeError "promise.then is not a function"),
       set_state pending_state (set_calls (calls w ++ [[pending_action]]) w)).
Proof.
  intros Hm Ht Hnp. rewrite run_mounted by assumption.
  destruct v; try reflexivity. exfalso. apply (Hnp p). reflexivity.
Qed.

Lemma run_non_promise_stuck_pending_witness :
  let w := step Commit (PokemonInfo_mount (VStr "")) in
  run (VStr "pikachu") w
    = (Throw (TypeError "promise.then is not a function"),
       set_state pending_state (set_calls (calls w ++ [[pending_action]]) w)).
Proof.
  intros w. apply (run_non_promise_stuck_pending (VStr "pikachu") w).
  - reflexivity.
  - reflexivity.
  - intros p. discriminate.
Defined.

(** X10: run called on a mounted component with a promise that has settled
    already still goes through Pending: the call writes the Pending state
    and queues the job, and the state of the settlement is written when
    the job runs. *)
Theorem run_settled_promise (p : nat) (o : outcome) (w : world) :
  mountedRef w = true -> quiet w = true -> settled w !! p = Some o ->
  observed [CallRun (VPromise p); Tick] w = [pending_state; state_of o] /\
  calls (exec [CallRun (VPromise p); Tick] w)
    = (calls w ++ [[pending_action]; [action_of o]])%list.
Proof.
  intros Hm Hq Hs. apply quiet_inv in Hq as [Hr Hj].
  assert (Hrun : step (CallRun (VPromise p)) w
            = set_jobs [o] (set_state pending_state
                (set_calls (calls w ++ [[pending_action]]) w))).
  { simpl. rewrite run_mounted by (exact Hm || reflexivity).
    unfold promise_then, bind, gets, modify. simpl. rewrite Hs. simpl.
    rewrite Hj. reflexivity. }
  unfold observed, exec. rewrite Hrun.
  match goal with |- context [step Tick ?x] =>
    change (step Tick x) with (tick x);
    rewrite (tick_mounted x o []) by (simpl; assumption || reflexivity) end.
  simpl. rewrite <- app_assoc. split; reflexivity.
Qed.

Lemma run_settled_promise_witness :
  let w := exec [Settle 0 (Fulfilled (VNum 25)); Commit] (PokemonInfo_mount (VStr "")) in
  observed [CallRun (VPromise 0); Tick] w = [pending_state; state_of (Fulfilled (VNum 25))] /\
  calls (exec [CallRun (VPromise 0); Tick] w)
    = (calls w ++ [[pending_action]; [action_of (Fulfilled (VNum 25))]])%list.
Proof.
  intros w. apply (run_settled_promise 0%nat (Fulfilled (VNum 25)) w); reflexivity.
Defined.

(* --------------------------------------------------------------------- *)
(* The store and the log of dispatches                                    *)
(* --------------------------------------------------------------------- *)

Lemma replay_snoc (s0 : AsyncState) (cs : list (list value)) (action : value)
    (s' : AsyncState) :
  reducer (replay s0 cs) action = Return s' ->
  replay s0 (cs ++ [[action]]) = s'.
Proof.
  intros Hr. unfold replay in *. rewrite fold_left_app. simpl. rewrite Hr. reflexivity.
Qed.

Lemma step_replay (s0 : AsyncState) (e : event) (w : world) :
  state w = replay s0 (calls w) -> state (step e w) = replay s0 (calls (step e w)).
Proof.
  intros Hinv.
  destruct (step_cases e w) as [Hs Hc | _ _ Hs Hc | o rest _ _ _ Hs Hc]; rewrite Hs, Hc.
  - exact Hinv.
  - symmetry. apply replay_snoc. reflexivity.
  - symmetry. apply replay_snoc, reducer_action_of.
Qed.

Lemma exec_replay (s0 : AsyncState) (es : list event) :
  forall w, state w = replay s0 (calls w) ->
    state (exec es w) = replay s0 (calls (exec es w)).
Proof.
  induction es as [| e es IH]; intros w Hinv; [exact Hinv |].
  simpl. apply IH, step_replay, Hinv.
Qed.

(** X11: the store is written through unsafeDispatch only: after any
    sequence of events the state of PokemonInfo is the initial state with
    the reducer run, in order, over the actions unsafeDispatch was called
    with. *)
Theorem state_is_replay_of_calls (pokemonName : value) (es : list event) :
  let w := exec es (PokemonInfo_mount pokemonName) in
  state w = replay (state (PokemonInfo_mount pokemonName)) (calls w).
Proof.
  intros w. apply exec_replay. reflexivity.
Qed.

Lemma filter_split_length (p : nat) (l : list nat) :
  (length (filter (fun q => q ≠ p) l) + length (filter (fun q => q = p) l))%nat = length l.
Proof.
  induction l as [| q l IH]; [reflexivity |].
  rewrite !filter_cons.
  destruct (decide (q = p)) as [Heq | Hne].
  - rewrite decide_False by (intros Hc; apply Hc, Heq). simpl. lia.
  - rewrite decide_True by exact Hne. simpl. lia.
Qed.

Lemma promise_then_load (promise : value) (w : world) :
  (load (snd (promise_then promise w)) <= S (load w))%nat.
Proof.
  unfold load. destruct promise; simpl; try lia.
  unfold bind, gets, modify. simpl.
  destruct (settled w !! p); simpl; rewrite length_app; simpl; lia.
Qed.

Lemma run_load (promise : value) (w : world) :
  (load (snd (run promise w)) <= load w + (if truthy promise then 2 else 0))%nat.
Proof.
  destruct (truthy promise) eqn:Ht.
  - destruct (mountedRef w) eqn:Hm.
    + rewrite run_mounted by assumption.
      etransitivity; [apply promise_then_load |].
      unfold load. simpl. rewrite length_app. simpl. lia.
    + rewrite run_unmounted by assumption.
      etransitivity; [apply promise_then_load |]. lia.
  - rewrite run_falsy by exact Ht. simpl. lia.
Qed.

Lemma step_load (e : event) (w : world) :
  (load (step e w) <= load w + (if starts_run e then 2 else 0))%nat.
Proof.
  destruct e as [ | | promise | pokemonName | p o | ]; simpl starts_run.
  - simpl. unfold load. simpl. lia.
  - simpl. unfold load. simpl. lia.
  - apply run_load.
  - simpl. destruct (truthy pokemonName) eqn:Ht.
    + rewrite PokemonInfo_effect_truthy by exact Ht.
      etransitivity; [apply run_load |]. simpl. unfold load. simpl. lia.
    + unfold PokemonInfo_effect. rewrite Ht. simpl. lia.
  - simpl. unfold settle. destruct (settled w !! p); [lia |].
    unfold load. simpl. rewrite length_app, length_fmap.
    pose proof (filter_split_length p (reactions w)). lia.
  - simpl. destruct (jobs w) as [| o rest] eqn:Hj.
    + rewrite tick_idle by exact Hj. lia.
    + destruct (mountedRef w) eqn:Hm.
      * rewrite (tick_mounted w o rest) by assumption.
        unfold load. simpl. rewrite length_app, Hj. simpl. lia.
      * rewrite (tick_unmounted w o rest) by assumption.
        unfold load. simpl. rewrite Hj. simpl. lia.
Qed.

Lemma exec_load (es : list event) :
  forall w, (load (exec es w) <= load w + 2 * runs_started es)%nat.
Proof.
  induction es as [| e es IH]; intros w; simpl; [lia |].
  pose proof (IH (step e w)) as H1. pose proof (step_load e w) as H2.
  destruct (starts_run e); lia.
Qed.

(** X12: there is no retry: after any sequence of events on PokemonInfo,
    the calls of unsafeDispatch made, the handlers still waiting and
    the jobs still queued are together at most two for each run started
    (the 'pending' dispatch and one settlement); so unsafeDispatch is
    called at most twice as often as runs are started. *)
Theorem two_dispatches_per_run (pokemonName : value) (es : list event) :
  let w := exec es (PokemonInfo_mount pokemonName) in
  (length (calls w) + length (reactions w) + length (jobs w) <= 2 * runs_started es)%nat /\
  (length (calls w) <= 2 * runs_started es)%nat.
Proof.
  intros w. pose proof (exec_load es (PokemonInfo_mount pokemonName)) as H.
  fold w in H. unfold load in H. simpl in H. split; lia.
Qed.
